(** * assemply.node: the node execution model

    A shallow embedding of [src/assemply/node.py]: the two output
    broadcasters ([QueueManager], [QueuesManager]) and the node class built
    by [node_sub] ([SubrutineNode]: [__init__], [_with_out], [_in], [run]).

    Coroutines are modelled as computations that append to a log of the
    effects performed on channels and either return or raise. *)

From stdpp Require Import gmap strings list fin_maps.

Open Scope string_scope.
Open Scope list_scope.

(** ** Python values, exceptions, results *)

(** The values that travel through channels. Tuples and strings are
    iterable, [None] and integers are not. *)
#[warnings="-register-all"] Inductive pyval :=
| VNone
| VInt (z : Z)
| VStr (s : string)
| VTuple (items : list pyval).

(** [iter(r)]: the items of an iterable, [None] when [r] is not iterable
    (Python raises TypeError there). A string iterates over its
    one-character substrings. *)
Definition py_iter (r : pyval) : option (list pyval) :=
  match r with
  | VTuple items => Some items
  | VStr s => Some ((λ c, VStr (String c EmptyString)) <$> String.list_ascii_of_string s)
  | VNone | VInt _ => None
  end.

(** The exceptions the module can see. [AttributeError] carries the
    missing key of the message [f"Attribute not exists on {f} [{ke}]"];
    [Exception] is whatever the user-supplied function raises. *)
Inductive exn :=
| KeyError (k : string)
| IndexError
| TypeError (msg : string)
| AttributeError (k : string)
| Exception (payload : pyval).

Inductive result (A : Type) :=
| Ok (a : A)
| Raise (e : exn).
Arguments Ok {A} a.
Arguments Raise {A} e.

(** ** Ordered dictionaries

    [self._inputs] and [self._outputs] are dicts built by comprehension and
    later read through [keys()], [values()] and subscripting: insertion
    order matters, so they are association lists with unique keys. *)
Definition odict (V : Type) := list (string * V).

Fixpoint dict_get {V} (d : odict V) (k : string) : option V :=
  match d with
  | [] => None
  | (k', v) :: rest => if decide (k' = k) then Some v else dict_get rest k
  end.

(** [d[k] = v]: overwrite in place when [k] is present, append otherwise. *)
Fixpoint dict_set {V} (d : odict V) (k : string) (v : V) : odict V :=
  match d with
  | [] => [(k, v)]
  | (k', v') :: rest =>
      if decide (k' = k) then (k', v) :: rest else (k', v') :: dict_set rest k v
  end.

Definition dict_keys {V} (d : odict V) : list string := d.*1.
Definition dict_values {V} (d : odict V) : list V := d.*2.

(** [dict(pairs)] *)
Definition dict_of_pairs {V} (pairs : list (string * V)) : odict V :=
  foldl (λ d kv, dict_set d kv.1 kv.2) [] pairs.

(** ** Channels

    A channel handle is the identity of a channel object. *)
Definition handle := nat.

(** The effects a node performs, in the order it performs them. [EvCall]
    records an invocation of the wrapped function. *)
Inductive event :=
| EvEnter (h : handle)
| EvClose (h : handle)
| EvCall (args : odict pyval)
| EvPut (h : handle) (v : pyval).

(** A coroutine run to completion: the effects it performed and its
    outcome. *)
Definition aio (A : Type) : Type := list event * result A.

Definition aio_ret {A} (a : A) : aio A := ([], Ok a).
Definition aio_raise {A} (e : exn) : aio A := ([], Raise e).
Definition aio_bind {A B} (m : aio A) (k : A → aio B) : aio B :=
  match m with
  | (t, Ok a) => let '(t', r) := k a in (t ++ t', r)
  | (t, Raise e) => (t, Raise e)
  end.
Definition aio_log (e : event) : aio unit := ([e], Ok ()).
Definition aio_lift {A} (r : result A) : aio A := ([], r).

#[global] Instance aio_mret : MRet aio := @aio_ret.
#[global] Instance aio_mbind : MBind aio := λ A B k m, aio_bind m k.

(** Modelled from the spec: the Channel primitive, which is not part of
    this repository's sources. "an ordered ... conduit of values with
    blocking put/get and an explicit closed terminal state": [put] hands
    the value to the channel. Used as [async with], a channel is acquired
    on entry and "on unwind of that scope ... the channel is closed —
    regardless of whether the body below completed normally or failed";
    the outcome of the body, an error included, is passed on. *)
Definition chan_put (h : handle) (v : pyval) : aio unit := aio_log (EvPut h v).

Definition async_with {A} (h : handle) (body : aio A) : aio A :=
  let '(t, r) := (aio_log (EvEnter h);; body) in
  (t ++ [EvClose h], r).

(** Modelled from the spec: [azip] of [assemply.atools], which is not among
    the sources. "given N ordered asynchronous input sequences (N ≥ 0),
    produces a ... sequence of N-tuples. Each produced tuple's i-th element
    is the next value from the i-th input. The sequence ends the moment ANY
    one input sequence signals end-of-stream ... (no partial tuple is ever
    emitted). For N = 0 the produced sequence is empty."

    [pull_round] advances every source once, or fails when one of them is
    exhausted. *)
Fixpoint pull_round (srcs : list (list pyval)) : option (list pyval * list (list pyval)) :=
  match srcs with
  | [] => Some ([], [])
  | [] :: _ => None
  | (x :: s) :: rest =>
      match pull_round rest with
      | None => None
      | Some (xs, rest') => Some (x :: xs, s :: rest')
      end
  end.

Fixpoint azip_from (s0 : list pyval) (rest : list (list pyval)) : list (list pyval) :=
  match s0 with
  | [] => []
  | x :: s0' =>
      match pull_round rest with
      | None => []
      | Some (xs, rest') => (x :: xs) :: azip_from s0' rest'
      end
  end.

Definition azip (srcs : list (list pyval)) : list (list pyval) :=
  match srcs with
  | [] => []
  | s0 :: rest => azip_from s0 rest
  end.

(** ** Output broadcasters *)

Module QueueManager.
Record t := { _output : handle }.

Definition __init__ (output_dict : odict handle) (output_key : list string) : result t :=
  match output_key with
  | [] => Raise IndexError
  | k :: _ =>
      match dict_get output_dict k with
      | None => Raise (KeyError k)
      | Some h => Ok {| _output := h |}
      end
  end.

Definition put (self : t) (r : pyval) : aio unit := chan_put (_output self) r.
End QueueManager.

Module QueuesManager.
Record t := { _outputs : list handle }.

Fixpoint lookup_all (output_dict : odict handle) (output_keys : list string) : result (list handle) :=
  match output_keys with
  | [] => Ok []
  | o :: rest =>
      match dict_get output_dict o with
      | None => Raise (KeyError o)
      | Some h =>
          match lookup_all output_dict rest with
          | Ok hs => Ok (h :: hs)
          | Raise e => Raise e
          end
      end
  end.

Definition __init__ (output_dict : odict handle) (output_keys : list string) : result t :=
  match lookup_all output_dict output_keys with
  | Ok hs => Ok {| _outputs := hs |}
  | Raise e => Raise e
  end.

(** [for o, v in zip(self._outputs, r): await o.put(v)] *)
Fixpoint put_each (pairs : list (handle * pyval)) : aio unit :=
  match pairs with
  | [] => mret ()
  | (o, v) :: rest => chan_put o v;; put_each rest
  end.

Definition put (self : t) (r : pyval) : aio unit :=
  match py_iter r with
  | None => aio_raise (TypeError "object is not iterable")
  | Some vs => put_each (zip (_outputs self) vs)
  end.
End QueuesManager.

Inductive queue_manager :=
| Single (m : QueueManager.t)
| Multi (m : QueuesManager.t).

Definition qm_put (m : queue_manager) (r : pyval) : aio unit :=
  match m with
  | Single m => QueueManager.put m r
  | Multi m => QueuesManager.put m r
  end.

(** ** The node class

    [result] is the monad of the synchronous code of [__init__]. *)
#[global] Instance result_mret : MRet result := @Ok.
#[global] Instance result_mbind : MBind result := λ A B k m,
  match m with
  | Ok a => k a
  | Raise e => Raise e
  end.
#[global] Instance result_fmap : FMap result := λ A B g m,
  match m with
  | Ok a => Ok (g a)
  | Raise e => Raise e
  end.

(** [try: body except KeyError as ke: handler(ke)] *)
Definition except_KeyError {A} (body : result A) (handler : string → result A) : result A :=
  match body with
  | Raise (KeyError ke) => handler ke
  | other => other
  end.

(** [{k: kwargs[k] for k in names}], filling [acc] from left to right. *)
Fixpoint dict_comp (kwargs : gmap string handle) (names : list string)
    (acc : odict handle) : result (odict handle) :=
  match names with
  | [] => Ok acc
  | k :: rest =>
      match kwargs !! k with
      | None => Raise (KeyError k)
      | Some ch => dict_comp kwargs rest (dict_set acc k ch)
      end
  end.

Record SubrutineNode := {
  _inputs : odict handle;
  _outputs : odict handle;
  _queue_manager : queue_manager
}.

Section node_sub.
(** The arguments of the decorator [node_sub(yaml_tag, inputs, outputs)]
    and the function [f] it decorates. A call of [f] returns a value or
    raises. *)
Variable yaml_tag : string.
Variables inputs outputs : list string.
Variable f : odict pyval → result pyval.

(** What each input channel delivers before its end of stream. *)
Variable feed : handle → list pyval.

Definition __init__ (kwargs : gmap string handle) : result SubrutineNode :=
  '(ins, outs) ← except_KeyError
      (ins ← dict_comp kwargs inputs [];
       outs ← dict_comp kwargs outputs [];
       mret (ins, outs))
      (λ ke, Raise (AttributeError ke));
  qm ← (if decide (length outputs = 1)
        then Single <$> QueueManager.__init__ outs outputs
        else Multi <$> QueuesManager.__init__ outs outputs);
  mret {| _inputs := ins; _outputs := outs; _queue_manager := qm |}.

Definition __repr__ (self : SubrutineNode) : string := (yaml_tag +:+ "()").

(** [data = f( **args )] *)
Definition call (args : odict pyval) : aio pyval :=
  aio_log (EvCall args);; aio_lift (f args).

(** [args = dict(zip(self._inputs.keys(), in_args))] *)
Definition frame_args (self : SubrutineNode) (in_args : list pyval) : odict pyval :=
  dict_of_pairs (zip (dict_keys (_inputs self)) in_args).

(** The body of [async for in_args in azip(...)], once per frame. *)
Fixpoint consume (self : SubrutineNode) (frames : list (list pyval)) : aio unit :=
  match frames with
  | [] => mret ()
  | in_args :: rest =>
      let args := frame_args self in_args in
      data ← call args;
      qm_put (_queue_manager self) data;;
      consume self rest
  end.

Definition _in (self : SubrutineNode) : aio unit :=
  consume self (azip (feed <$> dict_values (_inputs self))).

Fixpoint _with_out (self : SubrutineNode) (out_queue : string)
    (out_queues : list string) : aio unit :=
  match dict_get (_outputs self) out_queue with
  | None => aio_raise (KeyError out_queue)
  | Some ch =>
      async_with ch
        match out_queues with
        | [] => _in self
        | q :: qs => _with_out self q qs
        end
  end.

(** [run] passes the names of [outputs] to [_with_out] as positional
    arguments, and [_with_out] needs one at least. *)
Definition run (self : SubrutineNode) : aio unit :=
  match outputs with
  | [] => aio_raise
      (TypeError "_with_out() missing 1 required positional argument: 'out_queue'")
  | q :: qs => _with_out self q qs
  end.
End node_sub.

(** The constructor of the class that [node_sub(yaml_tag, inputs, outputs)]
    builds, with [inputs] and [outputs] as the decorator receives them: a
    list of names, or [None] when the argument is left out. A
    comprehension over [None] raises TypeError, which the
    [except KeyError] clause lets through; the comprehension over the
    inputs runs first. *)
Definition node_sub (inputs outputs : option (list string))
    (kwargs : gmap string handle) : result SubrutineNode :=
  match inputs, outputs with
  | Some ins, Some outs => __init__ ins outs kwargs
  | Some ins, None =>
      except_KeyError
        (_ ← dict_comp kwargs ins [];
         Raise (TypeError "'NoneType' object is not iterable"))
        (λ ke, Raise (AttributeError ke))
  | None, _ => Raise (TypeError "'NoneType' object is not iterable")
  end.

(** ** Reading a log *)

Definition closes (t : list event) : list handle :=
  omap (λ e, match e with EvClose h => Some h | _ => None end) t.

Definition enters (t : list event) : list handle :=
  omap (λ e, match e with EvEnter h => Some h | _ => None end) t.

Definition calls (t : list event) : list (odict pyval) :=
  omap (λ e, match e with EvCall a => Some a | _ => None end) t.

Definition puts (t : list event) : list (handle * pyval) :=
  omap (λ e, match e with EvPut h v => Some (h, v) | _ => None end) t.

(** The values channel [h] received, oldest first. *)
Definition received (h : handle) (t : list event) : list pyval :=
  omap (λ e, match e with
             | EvPut h' v => if decide (h' = h) then Some v else None
             | _ => None
             end) t.

(** [min(L1..Ln)], and 0 when there is no input. *)
Definition min_length (srcs : list (list pyval)) : nat :=
  match srcs with
  | [] => 0
  | s0 :: rest => foldr (λ s m, length s `min` m) (length s0) rest
  end.

(** The channels bound to a list of declared names, in declared order. *)
Definition bound (kwargs : gmap string handle) (names : list string) : list handle :=
  omap (λ k, kwargs !! k) names.

(** The values a function returns on successive calls, up to its first
    failure. *)
Fixpoint returned (f : odict pyval → result pyval) (argss : list (odict pyval)) : list pyval :=
  match argss with
  | [] => []
  | args :: rest =>
      match f args with
      | Ok r => r :: returned f rest
      | Raise _ => []
      end
  end.

(** ** Specification vocabulary *)

(** The broadcaster [__init__] picks for the channels [hs] of the declared
    outputs. *)
Definition chosen_manager (hs : list handle) : queue_manager :=
  match hs with
  | [h] => Single {| QueueManager._output := h |}
  | _ => Multi {| QueuesManager._outputs := hs |}
  end.

Definition declared (kwargs : gmap string handle) (names : list string) : Prop :=
  ∀ k, k ∈ names → is_Some (kwargs !! k).

(** Inside the consumption loop a node only calls [f] and puts. *)
Definition loop_event (e : event) : Prop :=
  match e with
  | EvCall _ | EvPut _ _ => True
  | EvEnter _ | EvClose _ => False
  end.

(** [r] is a tuple of [K] items. *)
Definition is_tuple_of (K : nat) (r : pyval) : Prop :=
  ∃ items, r = VTuple items ∧ length items = K.

(** [r] respects the declared output count: any value for one output, a
    [K]-tuple otherwise. *)
Definition fits (K : nat) (r : pyval) : Prop := K = 1 ∨ is_tuple_of K r.


(** The puts that deliver [r] to the channels [hs]: [r] itself for a
    single channel, otherwise its items, one per channel. *)
Definition pushes (hs : list handle) (r : pyval) : list event :=
  match hs with
  | [h] => [EvPut h r]
  | _ =>
      match py_iter r with
      | Some items => (λ p, EvPut p.1 p.2) <$> zip hs items
      | None => []
      end
  end.

(** What one join frame adds to the log: the call, then the puts of the
    returned value, if any. *)
Definition frame_log (f : odict pyval → result pyval) (self : SubrutineNode)
    (hs : list handle) (in_args : list pyval) : list event :=
  EvCall (frame_args self in_args) ::
  match f (frame_args self in_args) with
  | Ok r => pushes hs r
  | Raise _ => []
  end.

(** ** Sample nodes *)

Definition sample_kwargs : gmap string handle :=
  <["a" := 1]> (<["b" := 2]> (<["x" := 3]> (<["y" := 4]> (<["z" := 5]> ∅)))).

Definition sample_feed (h : handle) : list pyval :=
  match h with
  | 1 => [VInt 1; VInt 2; VInt 3]
  | 2 => [VInt 10; VInt 20; VInt 30; VInt 40]
  | _ => []
  end.

(** Sum, difference and product of [a] and [b], as a 3-tuple. *)
Definition sample_triple (args : odict pyval) : result pyval :=
  match dict_get args "a", dict_get args "b" with
  | Some (VInt a), Some (VInt b) => Ok (VTuple [VInt (a + b); VInt (a - b); VInt (a * b)])
  | _, _ => Raise (TypeError "unsupported operand")
  end.

(** Sum and difference as a pair; fails once [a] exceeds 1. *)
Definition sample_pair (args : odict pyval) : result pyval :=
  match dict_get args "a", dict_get args "b" with
  | Some (VInt a), Some (VInt b) =>
      if decide (a ≤ 1)%Z then Ok (VTuple [VInt (a + b); VInt (a - b)])
      else Raise (Exception (VInt a))
  | _, _ => Raise (TypeError "unsupported operand")
  end.



(** Sum and difference as a pair. *)
Definition sample_sum_diff (args : odict pyval) : result pyval :=
  match dict_get args "a", dict_get args "b" with
  | Some (VInt a), Some (VInt b) => Ok (VTuple [VInt (a + b); VInt (a - b)])
  | _, _ => Raise (TypeError "unsupported operand")
  end.

(** [a + b], for a single output. *)
Definition sample_sum (args : odict pyval) : result pyval :=
  match dict_get args "a", dict_get args "b" with
  | Some (VInt a), Some (VInt b) => Ok (VInt (a + b))
  | _, _ => Raise (TypeError "unsupported operand")
  end.

Definition sample_node (outs : odict handle) (qm : queue_manager) : SubrutineNode :=
  {| _inputs := [("a", 1); ("b", 2)]; _outputs := outs; _queue_manager := qm |}.

Definition sample_node1 : SubrutineNode :=
  sample_node [("x", 3)] (Single {| QueueManager._output := 3 |}).

Definition sample_node2 : SubrutineNode :=
  sample_node [("x", 3); ("y", 4)]
    (Multi {| QueuesManager._outputs := [3; 4] |}).

Definition sample_node3 : SubrutineNode :=
  sample_node [("x", 3); ("y", 4); ("z", 5)]
    (Multi {| QueuesManager._outputs := [3; 4; 5] |}).

(** ** Dictionaries *)

Lemma dict_get_set {V} (d : odict V) k v k' :
  dict_get (dict_set d k v) k' = if decide (k' = k) then Some v else dict_get d k'.
Proof.
  induction d as [|[k0 v0] d IH]; simpl.
  - repeat case_decide; congruence.
  - destruct (decide (k0 = k)) as [->|Hne]; simpl.
    + repeat case_decide; congruence.
    + rewrite IH. repeat case_decide; congruence.
Qed.

Lemma dict_comp_get kwargs names : ∀ acc d,
  dict_comp kwargs names acc = Ok d →
  ∀ k, dict_get d k = if decide (k ∈ names) then kwargs !! k else dict_get acc k.
Proof.
  induction names as [|k0 names IH]; simpl; intros acc d Hd k.
  - by injection Hd as <-.
  - destruct (kwargs !! k0) as [ch|] eqn:Hk0; [|done].
    rewrite (IH _ _ Hd k), dict_get_set.
    destruct (decide (k = k0)) as [->|Hne];
      repeat case_decide; try done; try congruence;
      exfalso; rewrite ?elem_of_cons in *; tauto.
Qed.

Lemma dict_comp_ok kwargs names : ∀ acc,
  (∀ k, k ∈ names → is_Some (kwargs !! k)) →
  ∃ d, dict_comp kwargs names acc = Ok d.
Proof.
  induction names as [|k0 names IH]; simpl; intros acc Hall; [by eexists|].
  destruct (Hall k0) as [ch ->]; [by left|].
  apply IH. intros k Hk. apply Hall. by right.
Qed.

Lemma dict_comp_missing kwargs names : ∀ acc k,
  k ∈ names → kwargs !! k = None →
  ∃ k', k' ∈ names ∧ kwargs !! k' = None ∧ dict_comp kwargs names acc = Raise (KeyError k').
Proof.
  induction names as [|k0 names IH]; simpl; intros acc k Hin Hk.
  - by apply elem_of_nil in Hin.
  - destruct (kwargs !! k0) as [ch|] eqn:Hk0.
    + apply elem_of_cons in Hin as [->|Hin]; [congruence|].
      destruct (IH (dict_set acc k0 ch) k Hin Hk) as (k' & ? & ? & ?).
      exists k'. split_and!; [by right|done|done].
    + exists k0. split_and!; [by left|done|done].
Qed.

Lemma dict_comp_ext kwargs kwargs' names : ∀ acc,
  (∀ k, k ∈ names → kwargs' !! k = kwargs !! k) →
  dict_comp kwargs' names acc = dict_comp kwargs names acc.
Proof.
  induction names as [|k0 names IH]; simpl; intros acc Hagree; [done|].
  rewrite Hagree by left. destruct (kwargs !! k0); [|done].
  apply IH. intros k Hk. apply Hagree. by right.
Qed.

Lemma bound_Forall2 kwargs names :
  (∀ k, k ∈ names → is_Some (kwargs !! k)) →
  Forall2 (λ k h, kwargs !! k = Some h) names (bound kwargs names).
Proof.
  induction names as [|k0 names IH]; intros Hall; [constructor|].
  unfold bound; simpl. destruct (Hall k0) as [ch Hch]; [by left|].
  rewrite Hch. constructor; [done|]. apply IH. intros k Hk. apply Hall. by right.
Qed.

Lemma lookup_all_bound kwargs names d :
  (∀ k, k ∈ names → is_Some (kwargs !! k)) →
  (∀ k, k ∈ names → dict_get d k = kwargs !! k) →
  QueuesManager.lookup_all d names = Ok (bound kwargs names).
Proof.
  induction names as [|k0 names IH]; intros Hall Hget; [done|].
  unfold bound; simpl. rewrite Hget by left.
  destruct (Hall k0) as [ch ->]; [by left|].
  rewrite IH; [done| |]; intros k Hk; [apply Hall|apply Hget]; by right.
Qed.

(** ** Construction *)

Lemma declared_dec kwargs names :
  declared kwargs names ∨ ∃ k, k ∈ names ∧ kwargs !! k = None.
Proof.
  induction names as [|k0 names [IH|(k & Hk & Hnone)]].
  - left. by intros k ?%elem_of_nil.
  - destruct (kwargs !! k0) as [ch|] eqn:Hk0.
    + left. intros k [->|Hk]%elem_of_cons; [by eexists|by apply IH].
    + right. exists k0. split; [by left|done].
  - right. exists k. split; [by right|done].
Qed.

Lemma bound_length kwargs names :
  declared kwargs names → length (bound kwargs names) = length names.
Proof. intros Hall. symmetry. eapply Forall2_length, bound_Forall2, Hall. Qed.

Lemma init_declared inputs outputs kwargs :
  declared kwargs inputs → declared kwargs outputs →
  ∃ ins outs,
    dict_comp kwargs inputs [] = Ok ins ∧
    dict_comp kwargs outputs [] = Ok outs ∧
    __init__ inputs outputs kwargs =
      Ok {| _inputs := ins; _outputs := outs;
            _queue_manager := chosen_manager (bound kwargs outputs) |}.
Proof.
  intros Hin Hout.
  destruct (dict_comp_ok kwargs inputs [] Hin) as [ins Hins].
  destruct (dict_comp_ok kwargs outputs [] Hout) as [outs Houts].
  exists ins, outs. split_and!; [done..|].
  assert (∀ k, k ∈ outputs → dict_get outs k = kwargs !! k) as Hget.
  { intros k Hk. rewrite (dict_comp_get _ _ _ _ Houts). by rewrite decide_True. }
  pose proof (bound_length _ _ Hout) as Hlen.
  unfold __init__. rewrite Hins, Houts. simpl.
  destruct (decide (length outputs = 1)) as [Hone|Hmany].
  - destruct outputs as [|o [|??]]; try done. simpl.
    rewrite Hget by left. unfold bound; simpl.
    by destruct (Hout o) as [ch ->]; [by left|].
  - unfold QueuesManager.__init__.
    rewrite (lookup_all_bound kwargs) by done. simpl.
    by destruct (bound kwargs outputs) as [|? [|??]]; simplify_eq/=.
Qed.

Lemma init_missing inputs outputs kwargs k :
  k ∈ inputs ∨ k ∈ outputs → kwargs !! k = None →
  ∃ k', (k' ∈ inputs ∨ k' ∈ outputs) ∧ kwargs !! k' = None ∧
        __init__ inputs outputs kwargs = Raise (AttributeError k').
Proof.
  intros Hk Hnone. unfold __init__.
  destruct (declared_dec kwargs inputs) as [Hin|(k1 & Hk1 & Hnone1)].
  - destruct Hk as [Hk|Hk]; [destruct (Hin k Hk); congruence|].
    destruct (dict_comp_ok kwargs inputs [] Hin) as [ins ->].
    destruct (dict_comp_missing kwargs outputs [] k Hk Hnone) as (k' & ? & ? & ->).
    exists k'. by split_and!; [right|..].
  - destruct (dict_comp_missing kwargs inputs [] k1 Hk1 Hnone1) as (k' & ? & ? & ->).
    exists k'. by split_and!; [left|..].
Qed.

Lemma init_inv inputs outputs kwargs node :
  __init__ inputs outputs kwargs = Ok node →
  declared kwargs inputs ∧ declared kwargs outputs ∧
  dict_comp kwargs inputs [] = Ok (_inputs node) ∧
  dict_comp kwargs outputs [] = Ok (_outputs node) ∧
  _queue_manager node = chosen_manager (bound kwargs outputs).
Proof.
  intros Hinit.
  assert (declared kwargs inputs ∧ declared kwargs outputs) as [Hin Hout].
  { split; intros k Hk; destruct (kwargs !! k) eqn:Hlk; try by eexists.
    - destruct (init_missing inputs outputs kwargs k) as (? & _ & _ & ?);
        [by left|done|congruence].
    - destruct (init_missing inputs outputs kwargs k) as (? & _ & _ & ?);
        [by right|done|congruence]. }
  destruct (init_declared _ _ _ Hin Hout) as (ins & outs & ? & ? & Heq).
  rewrite Heq in Hinit. by simplify_eq/=.
Qed.

Lemma bound_dict_get kwargs names (d : odict handle) :
  declared kwargs names →
  (∀ k, k ∈ names → dict_get d k = kwargs !! k) →
  Forall2 (λ o h, dict_get d o = Some h) names (bound kwargs names).
Proof.
  induction names as [|k0 names IH]; intros Hall Hget; [constructor|].
  unfold bound; simpl. destruct (Hall k0) as [ch Hch]; [by left|].
  rewrite Hch. constructor; [by rewrite Hget by left|].
  apply IH; intros k Hk; [apply Hall|apply Hget]; by right.
Qed.

Lemma init_outputs inputs outputs kwargs node :
  __init__ inputs outputs kwargs = Ok node →
  Forall2 (λ o h, dict_get (_outputs node) o = Some h) outputs (bound kwargs outputs).
Proof.
  intros (_ & Hout & _ & Houts & _)%init_inv.
  apply bound_dict_get; [done|].
  intros k Hk. rewrite (dict_comp_get _ _ _ _ Houts). by rewrite decide_True.
Qed.

(** ** Logs *)

Lemma closes_app t1 t2 : closes (t1 ++ t2) = closes t1 ++ closes t2.
Proof. apply omap_app. Qed.

Lemma closes_enter hs : closes (EvEnter <$> hs) = [].
Proof. by induction hs. Qed.

Lemma closes_close hs : closes (EvClose <$> hs) = hs.
Proof. induction hs; [done|]. unfold closes in *; simpl. by f_equal. Qed.

Lemma closes_loop t : Forall loop_event t → closes t = [].
Proof. induction 1 as [|[] ?]; by simplify_eq/=. Qed.

Lemma calls_bracket hs : calls (EvEnter <$> hs) = [] ∧ calls (EvClose <$> hs) = [].
Proof. split; by induction hs. Qed.

Lemma puts_bracket hs : puts (EvEnter <$> hs) = [] ∧ puts (EvClose <$> hs) = [].
Proof. split; by induction hs. Qed.

Lemma received_bracket h hs :
  received h (EvEnter <$> hs) = [] ∧ received h (EvClose <$> hs) = [].
Proof. split; by induction hs. Qed.

(** ** The scopes of [_with_out] *)

Lemma async_with_eq {A} h (body : aio A) :
  async_with h body = (EvEnter h :: body.1 ++ [EvClose h], body.2).
Proof. by destruct body as [t r]. Qed.

Lemma aio_bind_eq {A B} (m : aio A) (k : A → aio B) :
  m ≫= k =
  match m.2 with
  | Ok a => (m.1 ++ (k a).1, (k a).2)
  | Raise e => (m.1, Raise e)
  end.
Proof. destruct m as [t [a|e]]; [|done]. simpl. unfold mbind, aio_mbind; simpl. by destruct (k a). Qed.

Lemma put_each_eq pairs :
  QueuesManager.put_each pairs = ((λ p, EvPut p.1 p.2) <$> pairs, Ok ()).
Proof.
  induction pairs as [|[o v] pairs IH]; [done|].
  simpl. rewrite IH. done.
Qed.

Section scopes.
Variable f : odict pyval → result pyval.
Variable feed : handle → list pyval.
Variable self : SubrutineNode.

Lemma with_out_eq qs : ∀ q h hs,
  Forall2 (λ o h, dict_get (_outputs self) o = Some h) (q :: qs) (h :: hs) →
  _with_out f feed self q qs =
    ((EvEnter <$> h :: hs) ++ (_in f feed self).1 ++ (EvClose <$> rev (h :: hs)),
     (_in f feed self).2).
Proof.
  induction qs as [|q' qs IH]; intros q h hs Hall;
    apply Forall2_cons_1 in Hall as [Hq Hall]; simpl; rewrite Hq, async_with_eq.
  - apply Forall2_nil_inv_l in Hall as ->. done.
  - destruct hs as [|h' hs]; [by apply Forall2_nil_inv_r in Hall|].
    rewrite (IH q' h' hs Hall). simpl. f_equal. f_equal.
    rewrite !fmap_app, <-!app_assoc. done.
Qed.

Lemma loop_events_put m r : Forall loop_event (qm_put m r).1.
Proof.
  destruct m as [m|m]; simpl.
  - by repeat constructor.
  - unfold QueuesManager.put. destruct (py_iter r) as [vs|]; [|constructor].
    rewrite put_each_eq. simpl. apply Forall_fmap, Forall_true. by intros [].
Qed.

Lemma consume_cons in_args rest :
  consume f self (in_args :: rest) =
  match f (frame_args self in_args) with
  | Raise e => ([EvCall (frame_args self in_args)], Raise e)
  | Ok data =>
      let p := qm_put (_queue_manager self) data in
      match p.2 with
      | Raise e => (EvCall (frame_args self in_args) :: p.1, Raise e)
      | Ok _ =>
          (EvCall (frame_args self in_args) :: p.1 ++ (consume f self rest).1,
           (consume f self rest).2)
      end
  end.
Proof.
  simpl. unfold call, mbind, aio_mbind, aio_bind, aio_log, aio_lift. simpl.
  destruct (f (frame_args self in_args)) as [data|e]; [|done]. simpl.
  destruct (qm_put _ data) as [t [[]|e]]; [|done]. simpl.
  by destruct (consume f self rest).
Qed.

Lemma loop_events_consume frames : Forall loop_event (consume f self frames).1.
Proof.
  induction frames as [|in_args rest IH]; [constructor|].
  rewrite consume_cons. destruct (f _) as [data|e]; [|by repeat constructor].
  pose proof (loop_events_put (_queue_manager self) data) as Hput. simpl.
  destruct (qm_put _ data) as [t [[]|e]]; simpl in *; constructor; try done.
  by apply Forall_app.
Qed.
End scopes.

Lemma run_eq inputs outputs f feed kwargs node :
  __init__ inputs outputs kwargs = Ok node →
  outputs ≠ [] →
  run outputs f feed node =
    ((EvEnter <$> bound kwargs outputs) ++ (_in f feed node).1
       ++ (EvClose <$> rev (bound kwargs outputs)),
     (_in f feed node).2).
Proof.
  intros Hall%init_outputs Hne. unfold run.
  destruct outputs as [|q qs]; [done|].
  destruct (bound kwargs (q :: qs)) as [|h hs]; [by apply Forall2_nil_inv_r in Hall|].
  by apply with_out_eq.
Qed.

Lemma puts_consume_single f self h frames :
  _queue_manager self = Single {| QueueManager._output := h |} →
  puts (consume f self frames).1 =
    (λ r, (h, r)) <$> returned f (frame_args self <$> frames).
Proof.
  intros Hqm. induction frames as [|in_args rest IH]; [done|].
  rewrite consume_cons, Hqm. simpl.
  destruct (f (frame_args self in_args)) as [data|e]; [|done].
  simpl. unfold puts in *; simpl. by rewrite IH.
Qed.

(** ** The claims *)

(** C3: when [run] returns, normally or with an error, the log holds one
    close per declared output, in the reverse of the declared order; every
    declared output is bound to the channel closed at its place. *)
Theorem closing_order_reversed inputs outputs f feed kwargs node :
  __init__ inputs outputs kwargs = Ok node →
  Forall2 (λ o h, kwargs !! o = Some h) outputs (bound kwargs outputs) ∧
  closes (run outputs f feed node).1 = rev (bound kwargs outputs).
Proof.
  intros Hinit. pose proof (init_inv _ _ _ _ Hinit) as (_ & Hout & _).
  split; [by apply bound_Forall2|].
  destruct (decide (outputs = [])) as [->|Hne]; [done|].
  rewrite (run_eq inputs outputs f feed kwargs node Hinit Hne). simpl.
  rewrite !closes_app, closes_enter, closes_close.
  rewrite closes_loop by apply loop_events_consume. done.
Qed.

Lemma closing_order_reversed_witness :
  __init__ ["a"; "b"] ["x"; "y"; "z"] sample_kwargs = Ok sample_node3 ∧
  closes (run ["x"; "y"; "z"] sample_pair sample_feed sample_node3).1 = [5; 4; 3].
Proof.
  split; [vm_compute; reflexivity|].
  apply (closing_order_reversed ["a"; "b"] ["x"; "y"; "z"]
           sample_pair sample_feed sample_kwargs sample_node3).
  vm_compute; reflexivity.
Defined.

(** C6: when a declared input or output name is absent from the keyword
    arguments, [__init__] raises AttributeError (for an absent declared
    name) and returns no node. *)
Theorem missing_name_raises_AttributeError inputs outputs kwargs k :
  k ∈ inputs ∨ k ∈ outputs →
  kwargs !! k = None →
  ∃ k', __init__ inputs outputs kwargs = Raise (AttributeError k') ∧
        (k' ∈ inputs ∨ k' ∈ outputs) ∧ kwargs !! k' = None.
Proof.
  intros Hk Hnone.
  destruct (init_missing inputs outputs kwargs k Hk Hnone) as (k' & ? & ? & ?).
  by exists k'.
Qed.

Lemma missing_name_raises_AttributeError_witness :
  ("c" ∈ ["a"; "c"] ∨ "c" ∈ ["x"]) ∧
  sample_kwargs !! "c" = None ∧
  ∃ k', __init__ ["a"; "c"] ["x"] sample_kwargs = Raise (AttributeError k') ∧
        (k' ∈ ["a"; "c"] ∨ k' ∈ ["x"]) ∧ sample_kwargs !! k' = None.
Proof.
  assert ("c" ∈ ["a"; "c"] ∨ "c" ∈ ["x"]) as Hk.
  { left. refine (bool_decide_unpack _ _). vm_compute. exact I. }
  assert (sample_kwargs !! "c" = None) as Hnone by (vm_compute; reflexivity).
  split_and!; [exact Hk|exact Hnone|].
  exact (missing_name_raises_AttributeError _ _ _ _ Hk Hnone).
Defined.

(** C8: with an empty list of declared outputs, construction succeeds
    whenever the declared inputs are supplied, and every [run] of the node
    raises TypeError with an empty log, whatever the function and the
    inputs: nothing was entered, called or put. *)
Theorem no_outputs_run_raises_TypeError inputs kwargs :
  Forall (λ k, is_Some (kwargs !! k)) inputs →
  ∃ node, __init__ inputs [] kwargs = Ok node ∧
    ∀ f feed, ∃ msg, run [] f feed node = ([], Raise (TypeError msg)).
Proof.
  intros Hin. rewrite Forall_forall in Hin.
  destruct (init_declared inputs [] kwargs Hin) as (ins & outs & _ & _ & Hinit).
  { by intros k ?%elem_of_nil. }
  eexists. split; [exact Hinit|]. intros f feed. by eexists.
Qed.

Lemma no_outputs_run_raises_TypeError_witness :
  Forall (λ k, is_Some (sample_kwargs !! k)) ["a"; "b"] ∧
  ∃ node, __init__ ["a"; "b"] [] sample_kwargs = Ok node ∧
    ∀ f feed, ∃ msg, run [] f feed node = ([], Raise (TypeError msg)).
Proof.
  assert (Forall (λ k, is_Some (sample_kwargs !! k)) ["a"; "b"]) as Hin.
  { repeat (constructor; [eexists; vm_compute; reflexivity|]). constructor. }
  split; [exact Hin|].
  exact (no_outputs_run_raises_TypeError _ _ Hin).
Defined.

(** C10: when every declared input and output name is supplied,
    construction succeeds; a name that is declared neither as input nor
    as output is a key of neither [_inputs] nor [_outputs]; and the node
    is the same for every mapping that agrees on the declared names. *)
Theorem extra_kwargs_ignored inputs outputs kwargs :
  Forall (λ k, is_Some (kwargs !! k)) (inputs ++ outputs) →
  ∃ node, __init__ inputs outputs kwargs = Ok node ∧
    (∀ k, k ∉ inputs → k ∉ outputs →
          dict_get (_inputs node) k = None ∧ dict_get (_outputs node) k = None) ∧
    (∀ k, k ∈ inputs → dict_get (_inputs node) k = kwargs !! k) ∧
    (∀ k, k ∈ outputs → dict_get (_outputs node) k = kwargs !! k) ∧
    (∀ kwargs' : gmap string handle,
        (∀ k, k ∈ inputs ++ outputs → kwargs' !! k = kwargs !! k) →
        __init__ inputs outputs kwargs' = Ok node).
Proof.
  intros Hall. rewrite Forall_app, !Forall_forall in Hall. destruct Hall as [Hin Hout].
  destruct (init_declared inputs outputs kwargs Hin Hout)
    as (ins & outs & Hins & Houts & Hinit).
  eexists. split; [exact Hinit|]. simpl.
  pose proof (dict_comp_get _ _ _ _ Hins) as Hgi.
  pose proof (dict_comp_get _ _ _ _ Houts) as Hgo.
  split_and!.
  - intros k Hki Hko. rewrite Hgi, Hgo. by rewrite !decide_False.
  - intros k Hk. rewrite Hgi. by rewrite decide_True.
  - intros k Hk. rewrite Hgo. by rewrite decide_True.
  - intros kwargs' Hagree. rewrite <-Hinit. unfold __init__.
    rewrite (dict_comp_ext kwargs kwargs' inputs), (dict_comp_ext kwargs kwargs' outputs);
      [done|intros k Hk; apply Hagree, elem_of_app; by right
           |intros k Hk; apply Hagree, elem_of_app; by left].
Qed.

Lemma extra_kwargs_ignored_witness :
  Forall (λ k, is_Some (sample_kwargs !! k)) (["a"; "b"] ++ ["x"; "y"]) ∧
  is_Some (sample_kwargs !! "z") ∧
  ∃ node, __init__ ["a"; "b"] ["x"; "y"] sample_kwargs = Ok node ∧
    (∀ k, k ∉ ["a"; "b"] → k ∉ ["x"; "y"] →
          dict_get (_inputs node) k = None ∧ dict_get (_outputs node) k = None) ∧
    (∀ k, k ∈ ["a"; "b"] → dict_get (_inputs node) k = sample_kwargs !! k) ∧
    (∀ k, k ∈ ["x"; "y"] → dict_get (_outputs node) k = sample_kwargs !! k) ∧
    (∀ kwargs' : gmap string handle,
        (∀ k, k ∈ (["a"; "b"] ++ ["x"; "y"]) → kwargs' !! k = sample_kwargs !! k) →
        __init__ ["a"; "b"] ["x"; "y"] kwargs' = Ok node).
Proof.
  assert (Forall (λ k, is_Some (sample_kwargs !! k)) (["a"; "b"] ++ ["x"; "y"])) as Hall.
  { repeat (constructor; [eexists; vm_compute; reflexivity|]). constructor. }
  split_and!; [exact Hall|eexists; vm_compute; reflexivity|].
  exact (extra_kwargs_ignored _ _ _ Hall).
Defined.

(** C7: a node with no declared input calls its function never and puts
    nothing: the log of [run] is the entries of the outputs in declared
    order followed at once by their closes in reverse order. *)
Theorem zero_inputs_zero_iterations outputs f feed kwargs node :
  __init__ [] outputs kwargs = Ok node →
  (run outputs f feed node).1 =
    (EvEnter <$> bound kwargs outputs) ++ (EvClose <$> rev (bound kwargs outputs)) ∧
  calls (run outputs f feed node).1 = [] ∧
  puts (run outputs f feed node).1 = [] ∧
  closes (run outputs f feed node).1 = rev (bound kwargs outputs) ∧
  (outputs ≠ [] → (run outputs f feed node).2 = Ok ()).
Proof.
  intros Hinit. pose proof (init_inv _ _ _ _ Hinit) as (_ & _ & Hins & _).
  simpl in Hins. injection Hins as Hins.
  assert (_in f feed node = ([], Ok ())) as Hbody.
  { unfold _in. by rewrite <-Hins. }
  assert ((run outputs f feed node).1 =
    (EvEnter <$> bound kwargs outputs) ++ (EvClose <$> rev (bound kwargs outputs))) as Hlog.
  { destruct (decide (outputs = [])) as [->|Hne]; [done|].
    rewrite (run_eq [] outputs f feed kwargs node Hinit Hne). by rewrite Hbody. }
  split_and!; [done| | | |].
  - rewrite Hlog. unfold calls. rewrite omap_app.
    by rewrite (proj1 (calls_bracket _)), (proj2 (calls_bracket _)).
  - rewrite Hlog. unfold puts. rewrite omap_app.
    by rewrite (proj1 (puts_bracket _)), (proj2 (puts_bracket _)).
  - by rewrite Hlog, closes_app, closes_enter, closes_close.
  - intros Hne. rewrite (run_eq [] outputs f feed kwargs node Hinit Hne). by rewrite Hbody.
Qed.

Lemma zero_inputs_zero_iterations_witness :
  __init__ [] ["x"; "y"] sample_kwargs
    = Ok {| _inputs := []; _outputs := _outputs sample_node2;
            _queue_manager := _queue_manager sample_node2 |} ∧
  run ["x"; "y"] sample_pair sample_feed
      {| _inputs := []; _outputs := _outputs sample_node2;
         _queue_manager := _queue_manager sample_node2 |}
    = ([EvEnter 3; EvEnter 4; EvClose 4; EvClose 3], Ok ()).
Proof.
  split; [vm_compute; reflexivity|].
  pose proof (zero_inputs_zero_iterations ["x"; "y"] sample_pair sample_feed
                sample_kwargs _ eq_refl) as (Hlog & _ & _ & _ & Hres).
  apply injective_projections; [exact Hlog|by apply Hres].
Defined.

(** C9: with exactly one declared output, the broadcaster puts whatever
    value it is given, a tuple of any length included, as one item on the
    channel of that output and never fails; the puts of a run are the
    values the function returned, in order, each on that channel. *)
Theorem single_output_pushes_unchanged inputs o f feed kwargs node :
  __init__ inputs [o] kwargs = Ok node →
  ∃ h, kwargs !! o = Some h ∧
    (∀ r, qm_put (_queue_manager node) r = ([EvPut h r], Ok ())) ∧
    puts (run [o] f feed node).1 =
      (λ r, (h, r)) <$>
        returned f (frame_args node <$> azip (feed <$> dict_values (_inputs node))).
Proof.
  intros Hinit. pose proof (init_inv _ _ _ _ Hinit) as (_ & Hout & _ & _ & Hqm).
  destruct (Hout o) as [h Hh]; [by left|]. exists h.
  unfold bound in Hqm; simpl in Hqm. rewrite Hh in Hqm. simpl in Hqm.
  split_and!; [done|by intros r; rewrite Hqm|].
  rewrite (run_eq inputs [o] f feed kwargs node Hinit) by done. simpl.
  unfold puts. rewrite !omap_app.
  rewrite (proj1 (puts_bracket _)), (proj2 (puts_bracket _)), app_nil_r. simpl.
  by apply puts_consume_single.
Qed.

Lemma single_output_pushes_unchanged_witness :
  __init__ ["a"; "b"] ["x"] sample_kwargs = Ok sample_node1 ∧
  ∃ h, sample_kwargs !! "x" = Some h ∧
    (∀ r, qm_put (_queue_manager sample_node1) r = ([EvPut h r], Ok ())) ∧
    puts (run ["x"] sample_triple sample_feed sample_node1).1 =
      (λ r, (h, r)) <$>
        returned sample_triple
          (frame_args sample_node1 <$> azip (sample_feed <$> dict_values (_inputs sample_node1))).
Proof.
  split; [vm_compute; reflexivity|].
  apply (single_output_pushes_unchanged ["a"; "b"] "x" sample_triple sample_feed
           sample_kwargs sample_node1).
  vm_compute; reflexivity.
Defined.

(** C1, as the code has it: with two or more declared outputs, a tuple
    whose length differs from the number of outputs raises nothing; the
    broadcaster pairs channels and items from the left, puts the i-th item
    on the i-th channel, and stops at the shorter of the two. *)
Theorem arity_mismatch_is_truncated inputs outputs kwargs node items :
  __init__ inputs outputs kwargs = Ok node →
  (2 ≤ length outputs)%nat →
  length items ≠ length outputs →
  qm_put (_queue_manager node) (VTuple items) =
    ((λ p, EvPut p.1 p.2) <$> zip (bound kwargs outputs) items, Ok ()) ∧
  length (zip (bound kwargs outputs) items) = length outputs `min` length items.
Proof.
  intros Hinit Hk _. pose proof (init_inv _ _ _ _ Hinit) as (_ & Hout & _ & _ & Hqm).
  pose proof (bound_length _ _ Hout) as Hlen.
  split; [|by rewrite length_zip, Hlen].
  rewrite Hqm. destruct (bound kwargs outputs) as [|h1 [|h2 hs]]; simpl in Hlen; try lia.
  simpl. unfold QueuesManager.put. simpl. apply put_each_eq.
Qed.

Lemma arity_mismatch_is_truncated_witness :
  __init__ ["a"; "b"] ["x"; "y"] sample_kwargs = Ok sample_node2 ∧
  (2 ≤ length ["x"; "y"])%nat ∧
  length [VInt 7; VInt 8; VInt 9] ≠ length ["x"; "y"] ∧
  qm_put (_queue_manager sample_node2) (VTuple [VInt 7; VInt 8; VInt 9]) =
    ([EvPut 3 (VInt 7); EvPut 4 (VInt 8)], Ok ()) ∧
  length (zip (bound sample_kwargs ["x"; "y"]) [VInt 7; VInt 8; VInt 9]) = 2.
Proof.
  assert (__init__ ["a"; "b"] ["x"; "y"] sample_kwargs = Ok sample_node2) as Hinit
    by (vm_compute; reflexivity).
  assert (2 ≤ length ["x"; "y"])%nat as Hk by (simpl; lia).
  assert (length [VInt 7; VInt 8; VInt 9] ≠ length ["x"; "y"]) as Hne by (simpl; lia).
  split_and!; [exact Hinit|exact Hk|exact Hne|..];
    apply (arity_mismatch_is_truncated _ _ _ _ _ Hinit Hk Hne).
Defined.

(** C1, as stated, fails: a node declared with the two outputs [x] and
    [y] whose function returns 3-tuples runs to completion without an
    error, and the third item of every tuple is put nowhere. *)
Lemma arity_mismatch_not_raised :
  __init__ ["a"; "b"] ["x"; "y"] sample_kwargs = Ok sample_node2 ∧
  sample_triple [("a", VInt 1); ("b", VInt 10)] = Ok (VTuple [VInt 11; VInt (-9); VInt 10]) ∧
  qm_put (_queue_manager sample_node2) (VTuple [VInt 11; VInt (-9); VInt 10]) =
    ([EvPut 3 (VInt 11); EvPut 4 (VInt (-9))], Ok ()) ∧
  run ["x"; "y"] sample_triple sample_feed sample_node2 =
    ([EvEnter 3; EvEnter 4;
      EvCall [("a", VInt 1); ("b", VInt 10)]; EvPut 3 (VInt 11); EvPut 4 (VInt (-9));
      EvCall [("a", VInt 2); ("b", VInt 20)]; EvPut 3 (VInt 22); EvPut 4 (VInt (-18));
      EvCall [("a", VInt 3); ("b", VInt 30)]; EvPut 3 (VInt 33); EvPut 4 (VInt (-27));
      EvClose 4; EvClose 3],
     Ok ()).
Proof. split_and!; vm_compute; reflexivity. Qed.

(** ** The join *)

Lemma pull_round_Some srcs : ∀ xs rest',
  pull_round srcs = Some (xs, rest') →
  Forall2 (λ s x, head s = Some x) srcs xs ∧ rest' = tail <$> srcs.
Proof.
  induction srcs as [|[|x s] srcs IH]; simpl; intros xs rest' Hpull.
  - injection Hpull as <- <-. by split; [constructor|].
  - done.
  - destruct (pull_round srcs) as [[xs0 rest0]|]; [|done].
    injection Hpull as <- <-. destruct (IH xs0 rest0 eq_refl) as [Hheads ->].
    by split; [constructor|].
Qed.

Lemma pull_round_None srcs : pull_round srcs = None → [] ∈ srcs.
Proof.
  induction srcs as [|[|x s] srcs IH]; simpl; intros Hpull; [done|by left|].
  destruct (pull_round srcs) as [[xs0 rest0]|]; [done|]. right. by apply IH.
Qed.

Lemma min_from_exhausted (n : nat) (rest : list (list pyval)) :
  [] ∈ rest → foldr (λ s m, length s `min` m) n rest = 0.
Proof.
  induction rest as [|s rest IH]; intros Hin; [by apply elem_of_nil in Hin|].
  apply elem_of_cons in Hin as [<-|Hin]; simpl; [done|]. rewrite IH by done. apply Nat.min_0_r.
Qed.

Lemma min_from_0 (rest : list (list pyval)) :
  foldr (λ s m, length s `min` m) 0 rest = 0.
Proof. induction rest as [|s rest IH]; simpl; [done|]. rewrite IH. apply Nat.min_0_r. Qed.

Lemma min_from_S (n : nat) (rest : list (list pyval)) xs :
  Forall2 (λ s x, head s = Some x) rest xs →
  foldr (λ s m, length s `min` m) (S n) rest
  = S (foldr (λ s m, length s `min` m) n (tail <$> rest)).
Proof.
  induction 1 as [|s x rest xs Hhead _ IH]; simpl; [done|].
  rewrite IH. by destruct s.
Qed.

Lemma azip_from_length s0 : ∀ rest,
  length (azip_from s0 rest) = min_length (s0 :: rest).
Proof.
  unfold min_length.
  induction s0 as [|x s0 IH]; intros rest; simpl.
  - by rewrite min_from_0.
  - destruct (pull_round rest) as [[xs rest']|] eqn:Hpull.
    + apply pull_round_Some in Hpull as [Hheads ->].
      simpl. rewrite IH. symmetry. by eapply min_from_S.
    + apply pull_round_None in Hpull. by rewrite min_from_exhausted.
Qed.

Lemma azip_from_lookup s0 : ∀ rest j frame,
  azip_from s0 rest !! j = Some frame →
  Forall2 (λ s v, s !! j = Some v) (s0 :: rest) frame.
Proof.
  induction s0 as [|x s0 IH]; intros rest j frame; simpl; [done|].
  destruct (pull_round rest) as [[xs rest']|] eqn:Hpull; [|done].
  apply pull_round_Some in Hpull as [Hheads ->].
  destruct j as [|j]; simpl.
  - intros [= <-]. constructor; [done|].
    eapply Forall2_impl; [exact Hheads|]. intros s v Hh. by rewrite <-head_lookup.
  - intros Hj. apply IH in Hj. apply Forall2_cons_inv_l in Hj as (v & vs & Hv & Hvs & ->).
    constructor; [done|]. apply Forall2_fmap_l in Hvs.
    eapply Forall2_impl; [exact Hvs|]. intros s w Hw. simpl in Hw. by rewrite <-lookup_tail.
Qed.

(** C2: over N input sequences the join yields exactly [min(L1..Ln)]
    tuples (none for N = 0); the j-th tuple has one element per input, its
    i-th element being the j-th value of the i-th input. So every tuple is
    complete and nothing follows the exhaustion of the shortest input. *)
Theorem azip_yields_min_length_tuples (srcs : list (list pyval)) :
  length (azip srcs) = min_length srcs ∧
  ∀ j frame, azip srcs !! j = Some frame →
    Forall2 (λ s v, s !! j = Some v) srcs frame.
Proof.
  destruct srcs as [|s0 rest]; [done|]. split.
  - apply azip_from_length.
  - apply azip_from_lookup.
Qed.

Example azip_two_inputs :
  azip [[VInt 1; VInt 2; VInt 3]; [VInt 10; VInt 20; VInt 30; VInt 40]]
  = [[VInt 1; VInt 10]; [VInt 2; VInt 20]; [VInt 3; VInt 30]].
Proof. reflexivity. Qed.

Example azip_exhausted_input :
  azip [[VInt 1; VInt 2]; []; [VInt 5]] = [] ∧ azip [] = [].
Proof. split; reflexivity. Qed.

(** ** The consumption loop *)

Lemma qm_put_fits hs r :
  fits (length hs) r → qm_put (chosen_manager hs) r = (pushes hs r, Ok ()).
Proof.
  intros Hfit.
  assert (length hs = 1 ∨
          ∃ items, py_iter r = Some items ∧ chosen_manager hs = Multi {| QueuesManager._outputs := hs |}
                   ∧ pushes hs r = (λ p, EvPut p.1 p.2) <$> zip hs items) as [Hone|(items & Hiter & Hqm & Hpush)].
  { destruct hs as [|h [|h' hs]]; [|by left|]; right;
      (destruct Hfit as [?|(items & -> & _)]; [done|by exists items]). }
  - by destruct hs as [|h [|h' hs]].
  - rewrite Hqm, Hpush. simpl. unfold QueuesManager.put. rewrite Hiter. apply put_each_eq.
Qed.

Lemma consume_fits f self hs before :
  _queue_manager self = chosen_manager hs →
  Forall (λ fr, ∃ r, f (frame_args self fr) = Ok r ∧ fits (length hs) r) before →
  ∀ rest,
    consume f self (before ++ rest) =
      ((before ≫= frame_log f self hs) ++ (consume f self rest).1,
       (consume f self rest).2).
Proof.
  intros Hqm. induction 1 as [|fr before (r & Hr & Hfit) _ IH]; intros rest.
  - simpl. by destruct (consume f self rest).
  - rewrite <-app_comm_cons, consume_cons, Hr. simpl.
    rewrite Hqm, (qm_put_fits hs r Hfit). simpl. rewrite IH. simpl.
    unfold frame_log at 1. rewrite Hr. by rewrite <-app_assoc.
Qed.

Lemma received_app h t1 t2 : received h (t1 ++ t2) = received h t1 ++ received h t2.
Proof. apply omap_app. Qed.

Lemma received_other h hs items :
  h ∉ hs → received h ((λ p, EvPut p.1 p.2) <$> zip hs items) = [].
Proof.
  revert items. induction hs as [|h0 hs IH]; intros [|v items] Hnin; try done.
  apply not_elem_of_cons in Hnin as [Hne Hnin]. unfold received in *. simpl.
  rewrite decide_False by done. by apply IH.
Qed.

Lemma received_own hs : ∀ items i h,
  NoDup hs → length items = length hs → hs !! i = Some h →
  ∃ v, items !! i = Some v ∧
       received h ((λ p, EvPut p.1 p.2) <$> zip hs items) = [v].
Proof.
  induction hs as [|h0 hs IH]; intros [|v items] i h Hnd Hlen Hi; try done.
  apply NoDup_cons in Hnd as [Hnin Hnd]. destruct i as [|i]; simpl in Hi.
  - injection Hi as ->. exists v. split; [done|].
    unfold received. simpl. rewrite decide_True by done. f_equal.
    by apply received_other.
  - destruct (IH items i h Hnd) as (w & Hw & Hrec); [by simplify_eq/=|done|].
    exists w. split; [done|]. unfold received in *. simpl.
    rewrite decide_False; [done|]. intros ->. apply Hnin. by eapply list_elem_of_lookup_2.
Qed.






(** C5: when the declared outputs are bound to distinct channels and the
    function returns a K-tuple on every join frame, the values received by
    the channel of the i-th output correspond one to one, in order, to the
    join frames: the i-th item of the tuple returned on that frame (the
    tuple itself for K = 1, where it is put as one value). *)
Theorem each_output_receives_one_value_per_frame inputs outputs f feed kwargs node :
  __init__ inputs outputs kwargs = Ok node →
  NoDup (bound kwargs outputs) →
  Forall (λ fr, ∃ items, f (frame_args node fr) = Ok (VTuple items)
                         ∧ length items = length outputs)
         (azip (feed <$> dict_values (_inputs node))) →
  ∀ i h, bound kwargs outputs !! i = Some h →
    Forall2 (λ fr v, ∃ items, f (frame_args node fr) = Ok (VTuple items) ∧
                       if decide (length outputs = 1) then v = VTuple items
                       else items !! i = Some v)
            (azip (feed <$> dict_values (_inputs node)))
            (received h (run outputs f feed node).1).
Proof.
  intros Hinit Hnd Hall i h Hi.
  pose proof (init_inv _ _ _ _ Hinit) as (_ & Hout & _ & _ & Hqm).
  pose proof (bound_length _ _ Hout) as Hlen.
  assert (outputs ≠ []) as Hne.
  { intros ->. by destruct i. }
  rewrite (run_eq inputs outputs f feed kwargs node Hinit Hne). simpl.
  rewrite !received_app.
  rewrite (proj1 (received_bracket _ _)), (proj2 (received_bracket _ _)), app_nil_r.
  simpl. unfold _in.
  set (frames := azip (feed <$> dict_values (_inputs node))) in *.
  set (hs := bound kwargs outputs) in *.
  assert (Forall (λ fr, ∃ r, f (frame_args node fr) = Ok r ∧ fits (length hs) r) frames)
    as Hfits.
  { eapply Forall_impl; [exact Hall|]. intros fr (items & Hr & Hl).
    exists (VTuple items). split; [done|]. right. exists items. by rewrite Hlen. }
  pose proof (consume_fits f node hs frames Hqm Hfits []) as Hcons.
  rewrite app_nil_r in Hcons. rewrite Hcons. simpl. rewrite app_nil_r.
  clear Hcons Hfits. induction Hall as [|fr frames (items & Hr & Hl) _ IH]; [constructor|].
  rewrite bind_cons, received_app. unfold frame_log at 1. rewrite Hr.
  assert (∃ v, received h (EvCall (frame_args node fr) :: pushes hs (VTuple items)) = [v]
               ∧ if decide (length outputs = 1) then v = VTuple items
                 else items !! i = Some v) as (v & -> & Hv).
  { destruct (decide (length outputs = 1)) as [Hone|Hmany].
    - exists (VTuple items). split; [|done].
      destruct hs as [|h0 [|??]] eqn:Hhs; simpl in Hlen; try lia.
      destruct i; simplify_eq/=. unfold received. simpl. by rewrite decide_True.
    - destruct (received_own hs items i h Hnd) as (v & Hv & Hrec); [lia|done|].
      exists v. split; [|done].
      destruct hs as [|h0 [|??]] eqn:Hhs; simpl in Hlen; try lia; try done. }
  simpl. constructor; [by exists items|exact IH].
Qed.

Lemma each_output_receives_one_value_per_frame_witness :
  __init__ ["a"; "b"] ["x"; "y"] sample_kwargs = Ok sample_node2 ∧
  NoDup (bound sample_kwargs ["x"; "y"]) ∧
  bound sample_kwargs ["x"; "y"] !! 1 = Some 4 ∧
  received 4 (run ["x"; "y"] sample_sum_diff sample_feed sample_node2).1
    = [VInt (-9); VInt (-18); VInt (-27)] ∧
  Forall2 (λ fr v, ∃ items, sample_sum_diff (frame_args sample_node2 fr) = Ok (VTuple items) ∧
                     if decide (length ["x"; "y"] = 1) then v = VTuple items
                     else items !! 1 = Some v)
          (azip (sample_feed <$> dict_values (_inputs sample_node2)))
          (received 4 (run ["x"; "y"] sample_sum_diff sample_feed sample_node2).1).
Proof.
  assert (__init__ ["a"; "b"] ["x"; "y"] sample_kwargs = Ok sample_node2) as Hinit
    by (vm_compute; reflexivity).
  assert (NoDup (bound sample_kwargs ["x"; "y"])) as Hnd.
  { refine (bool_decide_unpack _ _). vm_compute. exact I. }
  assert (Forall (λ fr, ∃ items, sample_sum_diff (frame_args sample_node2 fr) = Ok (VTuple items)
                                 ∧ length items = length ["x"; "y"])
                 (azip (sample_feed <$> dict_values (_inputs sample_node2)))) as Hall.
  { vm_compute azip. repeat (constructor; [eexists; split; vm_compute; reflexivity|]).
    constructor. }
  split_and!; [exact Hinit|exact Hnd|vm_compute; reflexivity|vm_compute; reflexivity|].
  exact (each_output_receives_one_value_per_frame
           ["a"; "b"] ["x"; "y"] sample_sum_diff sample_feed sample_kwargs sample_node2
           Hinit Hnd Hall 1 4 eq_refl).
Defined.

(** Inputs [1, 2, 3] and [10, 20, 30, 40] summed onto one output: three
    values, then the channel is closed. *)
Example run_sum_end_to_end :
  run ["x"] sample_sum sample_feed sample_node1 =
    ([EvEnter 3;
      EvCall [("a", VInt 1); ("b", VInt 10)]; EvPut 3 (VInt 11);
      EvCall [("a", VInt 2); ("b", VInt 20)]; EvPut 3 (VInt 22);
      EvCall [("a", VInt 3); ("b", VInt 30)]; EvPut 3 (VInt 33);
      EvClose 3],
     Ok ()).
Proof. vm_compute. reflexivity. Qed.

(** ** Construction, further *)

Lemma dict_comp_first_missing kwargs pre k post : ∀ acc,
  Forall (λ n, is_Some (kwargs !! n)) pre →
  kwargs !! k = None →
  dict_comp kwargs (pre ++ k :: post) acc = Raise (KeyError k).
Proof.
  induction pre as [|n pre IH]; intros acc Hpre Hk; simpl.
  - by rewrite Hk.
  - apply Forall_cons in Hpre as [[ch ->] Hpre]. by apply IH.
Qed.

Lemma dict_keys_set {V} (d : odict V) k v k' :
  k' ∈ dict_keys (dict_set d k v) ↔ k' = k ∨ k' ∈ dict_keys d.
Proof.
  unfold dict_keys. induction d as [|[k0 v0] d IH]; simpl.
  - rewrite list_elem_of_singleton, elem_of_nil. tauto.
  - destruct (decide (k0 = k)) as [->|Hne]; simpl; rewrite !elem_of_cons; [tauto|].
    rewrite IH. tauto.
Qed.

Lemma dict_keys_set_NoDup {V} (d : odict V) k v :
  NoDup (dict_keys d) → NoDup (dict_keys (dict_set d k v)).
Proof.
  unfold dict_keys. induction d as [|[k0 v0] d IH]; simpl; intros Hnd.
  - apply NoDup_singleton.
  - apply NoDup_cons in Hnd as [Hnin Hnd].
    destruct (decide (k0 = k)) as [->|Hne]; simpl; apply NoDup_cons; split; try done; [|by apply IH].
    intros [?|?]%(dict_keys_set d k v k0); [congruence|done].
Qed.

Lemma dict_comp_keys kwargs names : ∀ acc d,
  dict_comp kwargs names acc = Ok d →
  NoDup (dict_keys acc) →
  NoDup (dict_keys d) ∧ ∀ k, k ∈ dict_keys d ↔ k ∈ dict_keys acc ∨ k ∈ names.
Proof.
  induction names as [|n names IH]; simpl; intros acc d Hd Hnd.
  - injection Hd as <-. split; [done|]. intros k. rewrite elem_of_nil. tauto.
  - destruct (kwargs !! n) as [ch|]; [|done].
    destruct (IH _ _ Hd (dict_keys_set_NoDup acc n ch Hnd)) as [Hnd' Hkeys].
    split; [done|]. intros k. rewrite Hkeys, dict_keys_set, elem_of_cons. tauto.
Qed.

Lemma dict_set_fresh {V} (d : odict V) k v :
  k ∉ dict_keys d → dict_set d k v = d ++ [(k, v)].
Proof.
  unfold dict_keys. induction d as [|[k0 v0] d IH]; simpl; intros Hnin; [done|].
  apply not_elem_of_cons in Hnin as [Hne Hnin].
  rewrite decide_False by done. by rewrite IH.
Qed.

Lemma dict_comp_distinct kwargs names : ∀ acc,
  NoDup (dict_keys acc ++ names) →
  (∀ k, k ∈ names → is_Some (kwargs !! k)) →
  dict_comp kwargs names acc = Ok (acc ++ zip names (bound kwargs names)).
Proof.
  induction names as [|n names IH]; intros acc Hnd Hall; simpl.
  - by rewrite app_nil_r.
  - destruct (Hall n) as [ch Hch]; [by left|].
    unfold bound; simpl. rewrite Hch. simpl.
    assert (n ∉ dict_keys acc) as Hfresh.
    { apply NoDup_app in Hnd as (_ & Hdisj & _). intros Hin. apply (Hdisj n Hin). by left. }
    rewrite dict_set_fresh by done. rewrite IH.
    + by rewrite <-app_assoc.
    + unfold dict_keys in *. rewrite fmap_app, <-app_assoc. done.
    + intros k Hk. apply Hall. by right.
Qed.

Lemma init_raise_inv inputs outputs kwargs e :
  __init__ inputs outputs kwargs = Raise e →
  ∃ k, e = AttributeError k ∧ (k ∈ inputs ∨ k ∈ outputs) ∧ kwargs !! k = None.
Proof.
  intros Hinit.
  destruct (declared_dec kwargs inputs) as [Hin|(k & Hk & Hnone)];
    [destruct (declared_dec kwargs outputs) as [Hout|(k & Hk & Hnone)]|].
  - destruct (init_declared _ _ _ Hin Hout) as (? & ? & _ & _ & Hok). congruence.
  - destruct (init_missing inputs outputs kwargs k (or_intror Hk) Hnone) as (k' & ? & ? & Heq).
    exists k'. split_and!; [congruence|done..].
  - destruct (init_missing inputs outputs kwargs k (or_introl Hk) Hnone) as (k' & ? & ? & Heq).
    exists k'. split_and!; [congruence|done..].
Qed.

(** The constructor of a [node_sub] class raises nothing but
    AttributeError, for a declared name that the keyword arguments lack,
    and TypeError, when [inputs] or [outputs] was left at its default
    [None]. With both given as lists it is AttributeError only: the
    broadcaster constructors called after the [try] block cannot fail. *)
Theorem constructor_raises_AttributeError_or_TypeError inputs outputs kwargs e :
  node_sub inputs outputs kwargs = Raise e →
  (∃ k, e = AttributeError k ∧ kwargs !! k = None ∧
        (k ∈ default [] inputs ∨ k ∈ default [] outputs)) ∨
  (∃ msg, e = TypeError msg ∧ (inputs = None ∨ outputs = None)).
Proof.
  destruct inputs as [ins|]; [|intros [= <-]; right; eauto].
  destruct outputs as [outs|]; simpl.
  - intros (k & -> & Hk & Hnone)%init_raise_inv. left. by exists k.
  - destruct (declared_dec kwargs ins) as [Hin|(k & Hk & Hnone)].
    + destruct (dict_comp_ok kwargs ins [] Hin) as [d ->]. simpl.
      intros [= <-]. right. eauto.
    + destruct (dict_comp_missing kwargs ins [] k Hk Hnone) as (k' & Hk' & Hnone' & ->).
      simpl. intros [= <-]. left. exists k'. split_and!; [done|done|by left].
Qed.

Lemma constructor_raises_AttributeError_or_TypeError_witness :
  node_sub (Some ["a"; "c"]) None sample_kwargs = Raise (AttributeError "c") ∧
  node_sub (Some ["a"; "b"]) None sample_kwargs
    = Raise (TypeError "'NoneType' object is not iterable") ∧
  node_sub None (Some ["x"]) sample_kwargs
    = Raise (TypeError "'NoneType' object is not iterable") ∧
  node_sub (Some ["a"]) (Some ["x"; "w"]) sample_kwargs = Raise (AttributeError "w") ∧
  ((∃ k, AttributeError "w" = AttributeError k ∧ sample_kwargs !! k = None ∧
         (k ∈ default [] (Some ["a"]) ∨ k ∈ default [] (Some ["x"; "w"]))) ∨
   (∃ msg, AttributeError "w" = TypeError msg
           ∧ (Some ["a"] = None ∨ Some ["x"; "w"] = None))).
Proof.
  assert (node_sub (Some ["a"]) (Some ["x"; "w"]) sample_kwargs
          = Raise (AttributeError "w")) as Hraise by (vm_compute; reflexivity).
  split_and!; [vm_compute; reflexivity..|exact Hraise|].
  exact (constructor_raises_AttributeError_or_TypeError _ _ _ _ Hraise).
Defined.

(** The inputs are looked up before the outputs, each list from left to
    right: the AttributeError names the first declared name, in the order
    inputs then outputs, that the keyword arguments lack. *)
Theorem init_reports_first_missing inputs outputs kwargs pre k post :
  inputs ++ outputs = pre ++ k :: post →
  Forall (λ n, is_Some (kwargs !! n)) pre →
  kwargs !! k = None →
  __init__ inputs outputs kwargs = Raise (AttributeError k).
Proof.
  intros Hsplit Hpre Hk. unfold __init__.
  apply app_eq_app in Hsplit as [m [[-> Hm]|[-> ->]]].
  - destruct m as [|k' m]; simpl in Hm.
    + rewrite app_nil_r. subst outputs.
      assert (∀ n, n ∈ pre → is_Some (kwargs !! n)) as Hdecl by by apply Forall_forall.
      destruct (dict_comp_ok kwargs pre [] Hdecl) as [ins ->]. simpl.
      by rewrite Hk.
    + injection Hm as <- ->.
      by rewrite (dict_comp_first_missing kwargs pre k m) by done.
  - apply Forall_app in Hpre as [Hin Hm].
    assert (∀ n, n ∈ inputs → is_Some (kwargs !! n)) as Hdecl by by apply Forall_forall.
    destruct (dict_comp_ok kwargs inputs [] Hdecl) as [ins ->].
    by rewrite (dict_comp_first_missing kwargs m k post) by done.
Qed.

Lemma init_reports_first_missing_witness :
  ["a"; "c"] ++ ["x"; "w"] = ["a"] ++ "c" :: ["x"; "w"] ∧
  Forall (λ n, is_Some (sample_kwargs !! n)) ["a"] ∧
  sample_kwargs !! "c" = None ∧
  __init__ ["a"; "c"] ["x"; "w"] sample_kwargs = Raise (AttributeError "c").
Proof.
  assert (Forall (λ n, is_Some (sample_kwargs !! n)) ["a"]) as Hpre.
  { repeat (constructor; [eexists; vm_compute; reflexivity|]). constructor. }
  assert (sample_kwargs !! "c" = None) as Hk by (vm_compute; reflexivity).
  split_and!; [reflexivity|exact Hpre|exact Hk|].
  exact (init_reports_first_missing ["a"; "c"] ["x"; "w"] sample_kwargs
           ["a"] "c" ["x"; "w"] eq_refl Hpre Hk).
Defined.

(** The keys of [_inputs] are the declared input names, each once, and
    those of [_outputs] the declared output names, each once: a name
    declared twice is a single entry. *)
Theorem init_keys_unique inputs outputs kwargs node :
  __init__ inputs outputs kwargs = Ok node →
  NoDup (dict_keys (_inputs node)) ∧ NoDup (dict_keys (_outputs node)) ∧
  (∀ k, k ∈ dict_keys (_inputs node) ↔ k ∈ inputs) ∧
  (∀ k, k ∈ dict_keys (_outputs node) ↔ k ∈ outputs).
Proof.
  intros (_ & _ & Hins & Houts & _)%init_inv.
  destruct (dict_comp_keys _ _ _ _ Hins) as [Hnd1 Hk1]; [constructor|].
  destruct (dict_comp_keys _ _ _ _ Houts) as [Hnd2 Hk2]; [constructor|].
  split_and!; [done|done| |]; intros k; [rewrite Hk1|rewrite Hk2];
    unfold dict_keys; simpl; rewrite elem_of_nil; tauto.
Qed.

Lemma init_keys_unique_witness :
  ∃ node, __init__ ["a"; "b"; "a"] ["x"; "x"] sample_kwargs = Ok node ∧
    dict_keys (_inputs node) = ["a"; "b"] ∧ dict_keys (_outputs node) = ["x"] ∧
    NoDup (dict_keys (_inputs node)) ∧ NoDup (dict_keys (_outputs node)) ∧
    (∀ k, k ∈ dict_keys (_inputs node) ↔ k ∈ ["a"; "b"; "a"]) ∧
    (∀ k, k ∈ dict_keys (_outputs node) ↔ k ∈ ["x"; "x"]).
Proof.
  eexists. split; [vm_compute; reflexivity|].
  split; [reflexivity|]. split; [reflexivity|].
  apply (init_keys_unique ["a"; "b"; "a"] ["x"; "x"] sample_kwargs).
  vm_compute; reflexivity.
Defined.

(** With pairwise distinct declared names, [_inputs] and [_outputs] list
    the declared names in declared order, each with the channel the
    keyword arguments bind to it. *)
Theorem init_keeps_declared_order inputs outputs kwargs node :
  __init__ inputs outputs kwargs = Ok node →
  (NoDup inputs → _inputs node = zip inputs (bound kwargs inputs)) ∧
  (NoDup outputs → _outputs node = zip outputs (bound kwargs outputs)).
Proof.
  intros (Hin & Hout & Hins & Houts & _)%init_inv.
  split; intros Hnd.
  - rewrite (dict_comp_distinct kwargs inputs []) in Hins by done. by injection Hins.
  - rewrite (dict_comp_distinct kwargs outputs []) in Houts by done. by injection Houts.
Qed.

Lemma init_keeps_declared_order_witness :
  __init__ ["b"; "a"] ["y"; "x"] sample_kwargs
    = Ok {| _inputs := [("b", 2); ("a", 1)]; _outputs := [("y", 4); ("x", 3)];
            _queue_manager := Multi {| QueuesManager._outputs := [4; 3] |} |} ∧
  (NoDup ["b"; "a"] → [("b", 2); ("a", 1)] = zip ["b"; "a"] (bound sample_kwargs ["b"; "a"])) ∧
  (NoDup ["y"; "x"] → [("y", 4); ("x", 3)] = zip ["y"; "x"] (bound sample_kwargs ["y"; "x"])).
Proof.
  split; [vm_compute; reflexivity|].
  apply (init_keeps_declared_order ["b"; "a"] ["y"; "x"] sample_kwargs
           {| _inputs := [("b", 2); ("a", 1)]; _outputs := [("y", 4); ("x", 3)];
              _queue_manager := Multi {| QueuesManager._outputs := [4; 3] |} |}).
  vm_compute; reflexivity.
Defined.

(** The broadcaster is chosen by the number of declared output names,
    repetitions counted: the single-channel one when there is exactly one
    name, otherwise the multi-channel one holding one channel per declared
    name, in declared order. *)
Theorem init_chooses_manager_by_count inputs outputs kwargs node :
  __init__ inputs outputs kwargs = Ok node →
  length (bound kwargs outputs) = length outputs ∧
  (length outputs = 1 →
     ∃ h, bound kwargs outputs = [h] ∧
          _queue_manager node = Single {| QueueManager._output := h |}) ∧
  (length outputs ≠ 1 →
     _queue_manager node = Multi {| QueuesManager._outputs := bound kwargs outputs |}).
Proof.
  intros (_ & Hout & _ & _ & Hqm)%init_inv.
  pose proof (bound_length _ _ Hout) as Hlen. rewrite Hqm.
  split_and!; [done| |]; intros Hcount; rewrite <-Hlen in Hcount;
    destruct (bound kwargs outputs) as [|h [|h' hs]]; simplify_eq/=; eauto.
Qed.

Lemma init_chooses_manager_by_count_witness :
  ∃ node, __init__ ["a"] ["x"; "x"] sample_kwargs = Ok node ∧
    _queue_manager node = Multi {| QueuesManager._outputs := [3; 3] |} ∧
    length (bound sample_kwargs ["x"; "x"]) = length ["x"; "x"] ∧
    (length ["x"; "x"] = 1 →
       ∃ h, bound sample_kwargs ["x"; "x"] = [h] ∧
            _queue_manager node = Single {| QueueManager._output := h |}) ∧
    (length ["x"; "x"] ≠ 1 →
       _queue_manager node
       = Multi {| QueuesManager._outputs := bound sample_kwargs ["x"; "x"] |}).
Proof.
  eexists. split; [vm_compute; reflexivity|]. split; [reflexivity|].
  apply (init_chooses_manager_by_count ["a"] ["x"; "x"] sample_kwargs).
  vm_compute; reflexivity.
Defined.

(** ** The multi-channel broadcaster on its own *)

Lemma lookup_all_Ok d keys : ∀ hs,
  QueuesManager.lookup_all d keys = Ok hs ↔
  Forall2 (λ k h, dict_get d k = Some h) keys hs.
Proof.
  induction keys as [|k keys IH]; intros hs; simpl.
  - split; [intros [= <-]; constructor|by intros ->%Forall2_nil_inv_l].
  - split.
    + destruct (dict_get d k) as [h|] eqn:Hk; [|done].
      destruct (QueuesManager.lookup_all d keys) as [hs'|] eqn:Hrest; [|done].
      intros [= <-]. constructor; [done|]. by apply IH.
    + intros (h & hs' & Hk & Hrest & ->)%Forall2_cons_inv_l.
      rewrite Hk. apply IH in Hrest. by rewrite Hrest.
Qed.

(** [QueuesManager(output_dict, output_keys)] succeeds exactly when every
    key is in the dict, and then holds the channel of each key, at the
    position of the key. *)
Theorem queues_manager_init_Ok d keys m :
  QueuesManager.__init__ d keys = Ok m ↔
  Forall2 (λ k h, dict_get d k = Some h) keys (QueuesManager._outputs m).
Proof.
  unfold QueuesManager.__init__. rewrite <-lookup_all_Ok.
  destruct m as [hs]. simpl.
  destruct (QueuesManager.lookup_all d keys) as [hs'|e]; split; intros Heq; by simplify_eq.
Qed.

(** It raises KeyError for the first key, from the left, that the dict
    lacks. *)
Theorem queues_manager_init_KeyError d pre k post :
  Forall (λ n, is_Some (dict_get d n)) pre →
  dict_get d k = None →
  QueuesManager.__init__ d (pre ++ k :: post) = Raise (KeyError k).
Proof.
  intros Hpre Hk. unfold QueuesManager.__init__.
  assert (QueuesManager.lookup_all d (pre ++ k :: post) = Raise (KeyError k)) as ->; [|done].
  induction Hpre as [|n pre [h Hn] _ IH]; simpl.
  - by rewrite Hk.
  - by rewrite Hn, IH.
Qed.

Lemma queues_manager_init_KeyError_witness :
  Forall (λ n, is_Some (dict_get [("x", 3); ("y", 4)] n)) ["y"] ∧
  dict_get [("x", 3); ("y", 4)] "w" = None ∧
  QueuesManager.__init__ [("x", 3); ("y", 4)] (["y"] ++ "w" :: ["x"; "v"])
    = Raise (KeyError "w").
Proof.
  assert (Forall (λ n, is_Some (dict_get [("x", 3); ("y", 4)] n)) ["y"]) as Hpre.
  { repeat (constructor; [eexists; vm_compute; reflexivity|]). constructor. }
  assert (dict_get [("x", 3); ("y", 4)] "w" = None) as Hk by (vm_compute; reflexivity).
  split_and!; [exact Hpre|exact Hk|].
  exact (queues_manager_init_KeyError _ ["y"] "w" ["x"; "v"] Hpre Hk).
Defined.

(** ** Runs, further *)

Lemma enters_enter hs : enters (EvEnter <$> hs) = hs.
Proof. induction hs; [done|]. unfold enters in *; simpl. by f_equal. Qed.

Lemma enters_close hs : enters (EvClose <$> hs) = [].
Proof. by induction hs. Qed.

Lemma enters_loop t : Forall loop_event t → enters t = [].
Proof. induction 1 as [|[] ?]; by simplify_eq/=. Qed.

Lemma calls_put_pairs (pairs : list (handle * pyval)) :
  calls ((λ p, EvPut p.1 p.2) <$> pairs) = [].
Proof. by induction pairs. Qed.

Lemma calls_qm_put m r : calls (qm_put m r).1 = [].
Proof.
  destruct m as [m|m]; simpl; [done|].
  unfold QueuesManager.put. destruct (py_iter r); [|done].
  rewrite put_each_eq. apply calls_put_pairs.
Qed.

Lemma puts_target_qm_put hs r :
  Forall (λ ev, match ev with EvPut h _ => h ∈ hs | _ => True end)
         (qm_put (chosen_manager hs) r).1.
Proof.
  assert (∀ items, Forall (λ ev, match ev with EvPut h _ => h ∈ hs | _ => True end)
                     ((λ p, EvPut p.1 p.2) <$> zip hs items)) as Hzip.
  { intros items. apply Forall_fmap, Forall_forall. intros [h v] Hin. simpl.
    by eapply elem_of_zip_l. }
  destruct hs as [|h [|h' hs]]; simpl.
  - unfold QueuesManager.put. destruct (py_iter r); [|constructor]. simpl. constructor.
  - repeat constructor.
  - unfold QueuesManager.put. destruct (py_iter r) as [items|]; [|constructor].
    rewrite put_each_eq. apply Hzip.
Qed.

(** [_with_out] looks each name up in [_outputs] as it reaches it: at the
    first name that is not a key it raises KeyError, after entering the
    channels of the names before it and closing them again in reverse
    order; the consumption loop is not run. *)
Lemma with_out_unknown f feed self known : ∀ hs q qs bad rest,
  Forall2 (λ o h, dict_get (_outputs self) o = Some h) known hs →
  dict_get (_outputs self) bad = None →
  known ++ bad :: rest = q :: qs →
  _with_out f feed self q qs =
    ((EvEnter <$> hs) ++ (EvClose <$> rev hs), Raise (KeyError bad)).
Proof.
  induction known as [|o known IH]; intros hs q qs bad rest Hknown Hbad Hsplit.
  - apply Forall2_nil_inv_l in Hknown as ->. simpl in Hsplit. injection Hsplit as <- <-.
    destruct rest; simpl; by rewrite Hbad.
  - apply Forall2_cons_inv_l in Hknown as (h & hs' & Ho & Hknown & ->).
    simpl in Hsplit. injection Hsplit as <- <-.
    assert (∃ q' qs', known ++ bad :: rest = q' :: qs') as (q' & qs' & Hnext).
    { destruct known; simpl; eauto. }
    rewrite Hnext. simpl. rewrite Ho, async_with_eq.
    rewrite (IH hs' q' qs' bad rest Hknown Hbad Hnext). simpl.
    by rewrite fmap_app, <-app_assoc.
Qed.

Lemma dict_of_pairs_fresh {V} (names : list string) : ∀ (vs : list V) (acc : odict V),
  NoDup (dict_keys acc ++ names) →
  foldl (λ d kv, dict_set d kv.1 kv.2) acc (zip names vs) = acc ++ zip names vs.
Proof.
  induction names as [|n names IH]; intros vs acc Hnd; [by rewrite app_nil_r|].
  destruct vs as [|v vs]; simpl; [by rewrite app_nil_r|].
  assert (n ∉ dict_keys acc) as Hfresh.
  { apply NoDup_app in Hnd as (_ & Hdisj & _). intros Hin. apply (Hdisj n Hin). by left. }
  rewrite dict_set_fresh by done. rewrite IH; [by rewrite <-app_assoc|].
  unfold dict_keys in *. by rewrite fmap_app, <-app_assoc.
Qed.

Lemma consume_calls_prefix f self frames :
  calls (consume f self frames).1 `prefix_of` (frame_args self <$> frames).
Proof.
  induction frames as [|fr frames IH]; [by apply prefix_nil|].
  rewrite consume_cons. simpl.
  destruct (f (frame_args self fr)) as [r|e']; simpl.
  - pose proof (calls_qm_put (_queue_manager self) r) as Hnone.
    destruct (qm_put (_queue_manager self) r) as [t [[]|e']]; simpl in *;
      unfold calls in *; simpl; apply prefix_cons.
    + by rewrite omap_app, Hnone.
    + rewrite Hnone. apply prefix_nil.
  - unfold calls; simpl. apply prefix_cons, prefix_nil.
Qed.

Lemma consume_puts_target f self hs frames :
  _queue_manager self = chosen_manager hs →
  Forall (λ ev, match ev with EvPut h _ => h ∈ hs | _ => True end)
         (consume f self frames).1.
Proof.
  intros Hqm. induction frames as [|fr frames IH]; [constructor|].
  rewrite consume_cons, Hqm.
  destruct (f (frame_args self fr)) as [r|e']; [|by repeat constructor].
  pose proof (puts_target_qm_put hs r) as Hput. simpl.
  destruct (qm_put (chosen_manager hs) r) as [t [[]|e']]; simpl in *;
    constructor; try done. by apply Forall_app.
Qed.

(** With at least one declared output, [run] is [_in] inside the scopes
    of the outputs: the channels are entered in declared order before
    anything else, the log of [_in] holds calls and puts only, the closes
    end the log, and the outcome is that of [_in]. *)
Theorem run_wraps_loop_in_scopes inputs outputs f feed kwargs node :
  __init__ inputs outputs kwargs = Ok node →
  outputs ≠ [] →
  (run outputs f feed node).1 =
    (EvEnter <$> bound kwargs outputs) ++ (_in f feed node).1
      ++ (EvClose <$> rev (bound kwargs outputs)) ∧
  (run outputs f feed node).2 = (_in f feed node).2 ∧
  Forall loop_event (_in f feed node).1 ∧
  enters (run outputs f feed node).1 = bound kwargs outputs.
Proof.
  intros Hinit Hne. rewrite (run_eq inputs outputs f feed kwargs node Hinit Hne). simpl.
  pose proof (loop_events_consume f node (azip (feed <$> dict_values (_inputs node))))
    as Hloop.
  split_and!; [done|done|exact Hloop|].
  assert (∀ t1 t2, enters (t1 ++ t2) = enters t1 ++ enters t2) as Happ
    by (intros; apply omap_app).
  unfold _in. rewrite !Happ, enters_enter, enters_close, (enters_loop _ Hloop).
  by rewrite !app_nil_r.
Qed.

Lemma run_wraps_loop_in_scopes_witness :
  __init__ ["a"; "b"] ["x"; "y"; "z"] sample_kwargs = Ok sample_node3 ∧
  ["x"; "y"; "z"] ≠ [] ∧
  enters (run ["x"; "y"; "z"] sample_triple sample_feed sample_node3).1 = [3; 4; 5].
Proof.
  assert (__init__ ["a"; "b"] ["x"; "y"; "z"] sample_kwargs = Ok sample_node3) as Hinit
    by (vm_compute; reflexivity).
  assert (["x"; "y"; "z"] ≠ []) as Hne by discriminate.
  split_and!; [exact Hinit|exact Hne|].
  exact (proj2 (proj2 (proj2 (run_wraps_loop_in_scopes
           ["a"; "b"] ["x"; "y"; "z"] sample_triple sample_feed sample_kwargs sample_node3
           Hinit Hne)))).
Defined.

(** When the function returns, on every join frame, a value that respects
    the declared output count, [run] returns normally and its log is the
    entries, then for each frame in turn its call and its puts, then the
    closes. *)
Theorem run_completes_when_results_fit inputs outputs f feed kwargs node :
  __init__ inputs outputs kwargs = Ok node →
  outputs ≠ [] →
  Forall (λ fr, ∃ r, f (frame_args node fr) = Ok r ∧ fits (length outputs) r)
         (azip (feed <$> dict_values (_inputs node))) →
  run outputs f feed node =
    ((EvEnter <$> bound kwargs outputs)
       ++ (azip (feed <$> dict_values (_inputs node))
             ≫= frame_log f node (bound kwargs outputs))
       ++ (EvClose <$> rev (bound kwargs outputs)),
     Ok ()).
Proof.
  intros Hinit Hne Hall.
  pose proof (init_inv _ _ _ _ Hinit) as (_ & Hout & _ & _ & Hqm).
  rewrite <-(bound_length _ _ Hout) in Hall.
  rewrite (run_eq inputs outputs f feed kwargs node Hinit Hne). unfold _in.
  pose proof (consume_fits f node (bound kwargs outputs) _ Hqm Hall []) as Hcons.
  rewrite app_nil_r in Hcons. rewrite Hcons. simpl. by rewrite app_nil_r.
Qed.

Lemma run_completes_when_results_fit_witness :
  __init__ ["a"; "b"] ["x"; "y"] sample_kwargs = Ok sample_node2 ∧
  ["x"; "y"] ≠ [] ∧
  run ["x"; "y"] sample_sum_diff sample_feed sample_node2 =
    ([EvEnter 3; EvEnter 4;
      EvCall [("a", VInt 1); ("b", VInt 10)]; EvPut 3 (VInt 11); EvPut 4 (VInt (-9));
      EvCall [("a", VInt 2); ("b", VInt 20)]; EvPut 3 (VInt 22); EvPut 4 (VInt (-18));
      EvCall [("a", VInt 3); ("b", VInt 30)]; EvPut 3 (VInt 33); EvPut 4 (VInt (-27));
      EvClose 4; EvClose 3],
     Ok ()).
Proof.
  assert (__init__ ["a"; "b"] ["x"; "y"] sample_kwargs = Ok sample_node2) as Hinit
    by (vm_compute; reflexivity).
  assert (["x"; "y"] ≠ []) as Hne by discriminate.
  assert (Forall (λ fr, ∃ r, sample_sum_diff (frame_args sample_node2 fr) = Ok r
                             ∧ fits (length ["x"; "y"]) r)
                 (azip (sample_feed <$> dict_values (_inputs sample_node2)))) as Hall.
  { vm_compute azip.
    repeat (constructor;
            [eexists; split; [vm_compute; reflexivity|right; eexists; split; reflexivity]|]).
    constructor. }
  split_and!; [exact Hinit|exact Hne|].
  exact (run_completes_when_results_fit
           ["a"; "b"] ["x"; "y"] sample_sum_diff sample_feed sample_kwargs sample_node2
           Hinit Hne Hall).
Defined.



Lemma with_out_unknown_witness :
  Forall2 (λ o h, dict_get (_outputs sample_node2) o = Some h) ["x"; "y"] [3; 4] ∧
  dict_get (_outputs sample_node2) "w" = None ∧
  _with_out sample_sum_diff sample_feed sample_node2 "x" ["y"; "w"; "x"] =
    ([EvEnter 3; EvEnter 4; EvClose 4; EvClose 3], Raise (KeyError "w")).
Proof.
  assert (Forall2 (λ o h, dict_get (_outputs sample_node2) o = Some h) ["x"; "y"] [3; 4])
    as Hknown by (repeat constructor).
  assert (dict_get (_outputs sample_node2) "w" = None) as Hbad by reflexivity.
  split_and!; [exact Hknown|exact Hbad|].
  exact (with_out_unknown sample_sum_diff sample_feed sample_node2
           ["x"; "y"] [3; 4] "x" ["y"; "w"; "x"] "w" ["x"] Hknown Hbad eq_refl).
Defined.

(** With pairwise distinct declared inputs, the keyword arguments of a
    call pair the declared input names, in declared order, with the
    elements of the join frame. *)
Theorem frame_args_pairs_names_with_values inputs outputs kwargs node in_args :
  __init__ inputs outputs kwargs = Ok node →
  NoDup inputs →
  frame_args node in_args = zip inputs in_args.
Proof.
  intros Hinit Hnd.
  pose proof (init_inv _ _ _ _ Hinit) as (Hin & _ & Hins & _).
  rewrite (dict_comp_distinct kwargs inputs []) in Hins by done.
  injection Hins as Hins.
  unfold frame_args, dict_of_pairs, dict_keys. rewrite <-Hins. simpl.
  rewrite fst_zip by (rewrite bound_length by done; lia).
  by rewrite (dict_of_pairs_fresh inputs in_args []).
Qed.

Lemma frame_args_pairs_names_with_values_witness :
  __init__ ["b"; "a"] ["x"] sample_kwargs
    = Ok {| _inputs := [("b", 2); ("a", 1)]; _outputs := [("x", 3)];
            _queue_manager := Single {| QueueManager._output := 3 |} |} ∧
  NoDup ["b"; "a"] ∧
  frame_args {| _inputs := [("b", 2); ("a", 1)]; _outputs := [("x", 3)];
                _queue_manager := Single {| QueueManager._output := 3 |} |}
             [VInt 10; VInt 1]
    = [("b", VInt 10); ("a", VInt 1)].
Proof.
  assert (NoDup ["b"; "a"]) as Hnd.
  { refine (bool_decide_unpack _ _). vm_compute. exact I. }
  split_and!; [vm_compute; reflexivity|exact Hnd|].
  exact (frame_args_pairs_names_with_values ["b"; "a"] ["x"] sample_kwargs _
           [VInt 10; VInt 1] eq_refl Hnd).
Defined.

(** A run puts values on the channels of its declared outputs only. *)
Theorem run_puts_only_on_declared_outputs inputs outputs f feed kwargs node h v :
  __init__ inputs outputs kwargs = Ok node →
  EvPut h v ∈ (run outputs f feed node).1 →
  h ∈ bound kwargs outputs.
Proof.
  intros Hinit Hput.
  pose proof (init_inv _ _ _ _ Hinit) as (_ & _ & _ & _ & Hqm).
  destruct (decide (outputs = [])) as [->|Hne]; [by apply elem_of_nil in Hput|].
  rewrite (run_eq inputs outputs f feed kwargs node Hinit Hne) in Hput. simpl in Hput.
  rewrite !elem_of_app, !list_elem_of_fmap in Hput.
  destruct Hput as [(? & ? & _)|[Hput|(? & ? & _)]]; [done| |done].
  pose proof (consume_puts_target f node (bound kwargs outputs)
                (azip (feed <$> dict_values (_inputs node))) Hqm) as Htarget.
  rewrite Forall_forall in Htarget. exact (Htarget _ Hput).
Qed.

Lemma run_puts_only_on_declared_outputs_witness :
  __init__ ["a"; "b"] ["x"; "y"] sample_kwargs = Ok sample_node2 ∧
  EvPut 4 (VInt (-9)) ∈ (run ["x"; "y"] sample_sum_diff sample_feed sample_node2).1 ∧
  4 ∈ bound sample_kwargs ["x"; "y"].
Proof.
  assert (__init__ ["a"; "b"] ["x"; "y"] sample_kwargs = Ok sample_node2) as Hinit
    by (vm_compute; reflexivity).
  assert (EvPut 4 (VInt (-9)) ∈ (run ["x"; "y"] sample_sum_diff sample_feed sample_node2).1)
    as Hput.
  { vm_compute. do 4 apply list_elem_of_further. apply list_elem_of_here. }
  split_and!; [exact Hinit|exact Hput|].
  exact (run_puts_only_on_declared_outputs ["a"; "b"] ["x"; "y"] sample_sum_diff
           sample_feed sample_kwargs sample_node2 4 (VInt (-9)) Hinit Hput).
Defined.

(** The function is called on the join frames in order, none skipped and
    none twice, up to the frame at which the run ends: the calls of a run
    are a prefix of the arguments built from the frames. *)
Theorem run_calls_are_a_prefix_of_frames inputs outputs f feed kwargs node :
  __init__ inputs outputs kwargs = Ok node →
  calls (run outputs f feed node).1
    `prefix_of` (frame_args node <$> azip (feed <$> dict_values (_inputs node))).
Proof.
  intros Hinit.
  destruct (decide (outputs = [])) as [->|Hne]; [apply prefix_nil|].
  rewrite (run_eq inputs outputs f feed kwargs node Hinit Hne). simpl.
  unfold calls. rewrite !omap_app.
  fold (calls (EvEnter <$> bound kwargs outputs)).
  fold (calls (EvClose <$> rev (bound kwargs outputs))).
  rewrite (proj1 (calls_bracket _)), (proj2 (calls_bracket _)), app_nil_r. simpl.
  apply consume_calls_prefix.
Qed.

Lemma run_calls_are_a_prefix_of_frames_witness :
  __init__ ["a"; "b"] ["x"; "y"] sample_kwargs = Ok sample_node2 ∧
  calls (run ["x"; "y"] sample_pair sample_feed sample_node2).1
    = [[("a", VInt 1); ("b", VInt 10)]; [("a", VInt 2); ("b", VInt 20)]] ∧
  calls (run ["x"; "y"] sample_pair sample_feed sample_node2).1
    `prefix_of` (frame_args sample_node2
                   <$> azip (sample_feed <$> dict_values (_inputs sample_node2))).
Proof.
  assert (__init__ ["a"; "b"] ["x"; "y"] sample_kwargs = Ok sample_node2) as Hinit
    by (vm_compute; reflexivity).
  split_and!; [exact Hinit|vm_compute; reflexivity|].
  exact (run_calls_are_a_prefix_of_frames ["a"; "b"] ["x"; "y"] sample_pair
           sample_feed sample_kwargs sample_node2 Hinit).
Defined.
